(** * hono-i18n: locale resolution, request binding and the context accessor

    A shallow embedding of [src/common/createI18n/createI18n.ts]:
    [createGetI18n], [createI18nMiddleware] and [createI18n].

    The Hono request context, the locale getter, [next] and core-i18n's
    [createTranslate] are collaborators of the module.  The request contexts
    live in a store addressed by reference, the getter and [next] are
    arbitrary computations over that store which may throw, and
    [createTranslate] is a parameter of the development.

    The catalog and the array of its keys are values here: the module never
    writes to either, and the getter is handed the contents of the array.
    An [async] function runs up to its first [await] within the call, so
    the middleware is the sequence of its statements, ending in [next]. *)

From stdpp Require Import gmap strings list fin_maps.

(** ** JavaScript values handed back by the locale getter *)

(** [getLocale] is typed [string | null | undefined]; the middleware checks
    [typeof] at run time, so the other primitives are kept as well. *)
Inductive jsval : Type :=
  | VUndefined
  | VNull
  | VBool (b : bool)
  | VNum (n : Z)
  | VStr (s : string).

Definition typeof (v : jsval) : string :=
  match v with
  | VUndefined => "undefined"
  | VNull => "object"
  | VBool _ => "boolean"
  | VNum _ => "number"
  | VStr _ => "string"
  end.

(** SameValueZero between an element of a [string[]] and any value: no
    coercion, so only an equal string matches. *)
Definition sameValueZero (x : string) (v : jsval) : bool :=
  match v with
  | VStr s => String.eqb x s
  | _ => false
  end.

(** [Array.prototype.includes] on a [string[]]. *)
Fixpoint includes (xs : list string) (v : jsval) : bool :=
  match xs with
  | [] => false
  | x :: rest => sameValueZero x v || includes rest v
  end.

(** ** Errors and completions *)

Inductive JsError : Type := Error (message : string).

Inductive completion (A : Type) : Type :=
  | Returns (a : A)
  | Throws (e : JsError).
Arguments Returns {A} a.
Arguments Throws {A} e.

(** ** The request contexts *)

(** The value of the context variable ["i18n"], as declared in the
    [ContextVariableMap] augmentation: [{ locale: Locale }]. *)
Record I18nVar : Type := MkI18nVar { locale : string }.

(** What this development sees of a Hono [Context]: the cookies of its
    request, the optional ["i18n"] variable and the other variables. *)
Record Context : Type := MkContext {
  req_cookies : gmap string string;
  var_i18n : option I18nVar;
  var_other : gmap string jsval
}.

Definition fresh_context : Context :=
  {| req_cookies := ∅; var_i18n := None; var_other := ∅ |}.

(** A context is an object: it is passed around by reference. *)
Definition CtxRef : Type := nat.

(** The state a computation runs in: the store of the request contexts and
    whatever state the application has besides (the module has none of its
    own).  A reference that was never written denotes a context without
    cookies and variables. *)
Record World : Type := MkWorld {
  contexts : gmap CtxRef Context;
  globals : gmap string jsval
}.

Definition world_of (ctxs : gmap CtxRef Context) : World :=
  {| contexts := ctxs; globals := ∅ |}.

Definition ctx_of (w : World) (c : CtxRef) : Context :=
  default fresh_context (contexts w !! c).

(** ** Computations over the store that may throw *)

Definition M (A : Type) : Type := World -> completion A * World.

Definition ret {A} (a : A) : M A := fun w => (Returns a, w).

Definition throw {A} (e : JsError) : M A := fun w => (Throws e, w).

Definition bind {A B} (m : M A) (k : A -> M B) : M B :=
  fun w =>
    match m w with
    | (Returns a, w') => k a w'
    | (Throws e, w') => (Throws e, w')
    end.

Declare Scope js_scope.
Delimit Scope js_scope with js.
Notation "x <- m ;; k" := (bind m (fun x => k))
  (at level 100, m at next level, right associativity) : js_scope.
Notation "m ;;; k" := (bind m (fun _ => k))
  (at level 100, right associativity) : js_scope.
Open Scope js_scope.

(** [c.get("i18n")]: the stored object, or [undefined] ([None]) when the
    variable was never set.  An object is truthy, so the accessor's [!i18n]
    is the test for [None]. *)
Definition c_get_i18n (c : CtxRef) : M (option I18nVar) :=
  fun w => (Returns (var_i18n (ctx_of w c)), w).

(** [c.set("i18n", v)] *)
Definition set_i18n (c : CtxRef) (v : I18nVar) (w : World) : World :=
  let old := ctx_of w c in
  {| contexts :=
       <[c := {| req_cookies := req_cookies old;
                 var_i18n := Some v;
                 var_other := var_other old |}]> (contexts w);
     globals := globals w |}.

Definition c_set_i18n (c : CtxRef) (v : I18nVar) : M unit :=
  fun w => (Returns tt, set_i18n c v w).

(** The locale bound for a request, if any. *)
Definition bound_locale (w : World) (c : CtxRef) : option string :=
  locale <$> var_i18n (ctx_of w c).

(** The two states of a request's slot. *)
Inductive SlotState : Type :=
  | UNINITIALIZED
  | BOUND (l : string).

Definition slot_state (w : World) (c : CtxRef) : SlotState :=
  match var_i18n (ctx_of w c) with
  | None => UNINITIALIZED
  | Some v => BOUND (locale v)
  end.

(** [GetLocale<Ctx, DefaultLocale>] and Hono's [Next]. *)
Definition GetLocale : Type := CtxRef -> list string -> string -> M jsval.
Definition Next : Type := M unit.

(** The conditional of the middleware:
    [typeof selectedLocale === "string" && locales.includes(selectedLocale)
       ? selectedLocale : defaultLocale].
    In the true branch [selectedLocale] is narrowed to a string: the inner
    match reads it, and its other case is never taken. *)
Definition resolveLocale (selectedLocale : jsval) (locales : list string)
    (defaultLocale : string) : string :=
  if String.eqb (typeof selectedLocale) "string"
     && includes locales selectedLocale
  then match selectedLocale with VStr s => s | _ => defaultLocale end
  else defaultLocale.

(** [createI18nMiddleware]: the body runs up to [next()] within the call;
    [await next()] is the last statement, so its completion is the
    middleware's. *)
Definition createI18nMiddleware (locales : list string) (defaultLocale : string)
    (getLocale : GetLocale) : CtxRef -> Next -> M unit :=
  fun c next =>
    selectedLocale <- getLocale c locales defaultLocale ;;
    let locale := resolveLocale selectedLocale locales defaultLocale in
    c_set_i18n c {| locale := locale |} ;;;
    next.

Section WithTranslationEngine.

(** core-i18n: the message structure of one locale, the translate function
    and its factory. *)
Context {Msg TranslateFn : Type}.
Variable createTranslate : gmap string Msg -> string -> TranslateFn.

(** [Object.keys(messages)]: the own keys of the catalog. *)
Definition Object_keys (messages : gmap string Msg) : list string :=
  (map_to_list messages).*1.

(** [createGetI18n] *)
Definition createGetI18n (messages : gmap string Msg)
    : CtxRef -> M TranslateFn :=
  fun c =>
    i18n <- c_get_i18n c ;;
    match i18n with
    | None => throw (Error "createI18nMiddleware middleware not initialized")
    | Some v =>
        let locale := locale v in
        ret (createTranslate messages locale)
    end.

Record I18nOptions : Type := MkI18nOptions {
  messages : gmap string Msg;
  defaultLocale : string;
  getLocale : GetLocale
}.

Record I18n : Type := MkI18n {
  getI18n : CtxRef -> M TranslateFn;
  i18nMiddleware : CtxRef -> Next -> M unit
}.

(** [createI18n] *)
Definition createI18n (options : I18nOptions) : completion I18n :=
  if negb (includes (Object_keys (messages options))
                    (VStr (defaultLocale options)))
  then Throws (Error "defaultLocale is not available in messages")
  else Returns
    {| getI18n := createGetI18n (messages options);
       i18nMiddleware :=
         createI18nMiddleware (Object_keys (messages options))
           (defaultLocale options) (getLocale options) |}.

(** ** Requests in flight

    What the framework does with the two functions: it runs the middleware
    at the start of a request (the handler is reached through [next]; here
    the handler's reads are separate steps, so that the steps of several
    requests can interleave) and handlers call the accessor.  Each step
    completes on its own: an error thrown in one request goes to that
    request's error boundary. *)

Inductive Op : Type :=
  | Bind (c : CtxRef)
  | Access (c : CtxRef).

Inductive Obs : Type :=
  | Bind_done (c : CtxRef) (r : completion unit)
  | Accessed (c : CtxRef) (r : completion TranslateFn).

Definition run_op (i : I18n) (op : Op) (w : World) : Obs * World :=
  match op with
  | Bind c =>
      let (r, w') := i18nMiddleware i c (ret tt) w in (Bind_done c r, w')
  | Access c =>
      let (r, w') := getI18n i c w in (Accessed c r, w')
  end.

Fixpoint run_schedule (i : I18n) (ops : list Op) (w : World)
    : list Obs * World :=
  match ops with
  | [] => ([], w)
  | op :: rest =>
      let (o, w') := run_op i op w in
      let (os, w'') := run_schedule i rest w' in
      (o :: os, w'')
  end.

(** The state of the slot of [c] after each step of a schedule. *)
Fixpoint slot_trace (i : I18n) (c : CtxRef) (ops : list Op) (w : World)
    : list SlotState :=
  match ops with
  | [] => []
  | op :: rest =>
      let w' := (run_op i op w).2 in
      slot_state w' c :: slot_trace i c rest w'
  end.

End WithTranslationEngine.

Arguments I18nOptions : clear implicits.
Arguments I18n : clear implicits.
Arguments Obs : clear implicits.

Global Instance Op_eq_dec : EqDecision Op.
Proof. solve_decision. Defined.

(** A getter that only reads its own request: its answer is a function of
    that request's cookies, it always returns and it writes nothing.  The
    getter of the tests, [(c) => getCookie(c, name)], is of this kind. *)
Definition reads_request (getLocale : GetLocale)
    (signal : gmap string string -> jsval) : Prop :=
  forall c locales d w,
    getLocale c locales d w = (Returns (signal (req_cookies (ctx_of w c))), w).

(** The locale such a request resolves to, from its cookies. *)
Definition request_locale (signal : gmap string string -> jsval)
    (locales : list string) (d : string) (w : World) (c : CtxRef) : string :=
  resolveLocale (signal (req_cookies (ctx_of w c))) locales d.

(** ** The set-up of the repository's tests *)

Definition localeCookieName : string := "locale-cookie".

(** [getCookie(c, name)] of hono/cookie: the cookie, or [undefined]. *)
Definition getCookie (c : CtxRef) (name : string) : M jsval :=
  fun w =>
    (Returns match req_cookies (ctx_of w c) !! name with
             | Some s => VStr s
             | None => VUndefined
             end, w).

Definition cookieSignal (cookies : gmap string string) : jsval :=
  match cookies !! localeCookieName with
  | Some s => VStr s
  | None => VUndefined
  end.

(** [(c) => getCookie(c, localeCookieName)] *)
Definition cookieLocale : GetLocale :=
  fun c _ _ => getCookie c localeCookieName.

Definition test_messages : gmap string (gmap string string) :=
  {[ "en-EN" := {[ "greeting" := "Hi!" ]};
     "de-DE" := {[ "greeting" := "Hallo!" ]} ]}.

Definition test_options (d : string) : I18nOptions (gmap string string) :=
  {| messages := test_messages; defaultLocale := d; getLocale := cookieLocale |}.

(** A context as the framework creates it for a request with the given
    locale cookie. *)
Definition request (cookie : option string) : Context :=
  {| req_cookies :=
       match cookie with
       | Some s => {[ localeCookieName := s ]}
       | None => ∅
       end;
     var_i18n := None;
     var_other := ∅ |}.

(** A context whose slot the middleware has set. *)
Definition bound_request (l : string) : Context :=
  {| req_cookies := ∅; var_i18n := Some {| locale := l |}; var_other := ∅ |}.

(** What [createI18n] returns for the catalog of the tests. *)
Definition test_i18n {TranslateFn : Type}
    (createTranslate : gmap string (gmap string string) -> string -> TranslateFn)
    (d : string) : I18n TranslateFn :=
  {| getI18n := createGetI18n createTranslate test_messages;
     i18nMiddleware :=
       createI18nMiddleware (Object_keys test_messages) d cookieLocale |}.

(** A stand-in for the translation engine in the examples: it looks the key
    up in the catalog of the locale.  The theorems hold for any engine. *)
Definition lookupTranslate (messages : gmap string (gmap string string))
    (locale : string) : string -> string :=
  fun key => default key (messages !! locale ≫= (.!! key)).

(** The handler of the tests: [const t = getI18n(c); return t("greeting")]. *)
Definition greet (getI18n : CtxRef -> M (string -> string)) (c : CtxRef)
    : M string :=
  t <- getI18n c ;;
  ret (t "greeting").

(** [app.use(i18nMiddleware)] followed by that handler. *)
Definition serve (i : I18n (string -> string)) (c : CtxRef) : M string :=
  i18nMiddleware i c (ret tt) ;;;
  greet (getI18n i) c.

(** Two requests in flight, with different locale cookies. *)
Definition two_requests : World :=
  world_of {[ 1 := request (Some "de-DE"); 2 := request (Some "tr-TR") ]}.

(** An engine that hands back its arguments, to read off what it was given. *)
Definition recordTranslate (messages : gmap string (gmap string string))
    (locale : string) : gmap string (gmap string string) * string :=
  (messages, locale).

(** A getter that fails, as one that parses a malformed header may. *)
Definition failingLocale : GetLocale :=
  fun _ _ _ => throw (Error "locale signal unreadable").

(** * Properties *)

(** ** The pieces of JavaScript *)

Lemma typeof_string (v : jsval) :
  typeof v = "string" <-> exists s, v = VStr s.
Proof.
  split.
  - destruct v; simpl; intros H; try discriminate. eauto.
  - intros [s ->]. reflexivity.
Qed.

Lemma sameValueZero_true (x : string) (v : jsval) :
  sameValueZero x v = true <-> v = VStr x.
Proof.
  destruct v; simpl; try (split; [discriminate | intros [=]]).
  rewrite String.eqb_eq. split; [intros -> | intros [=]]; congruence.
Qed.

Lemma includes_true (xs : list string) (v : jsval) :
  includes xs v = true <-> exists s, v = VStr s /\ s ∈ xs.
Proof.
  induction xs as [|x xs IH]; simpl.
  - split; [discriminate | intros (s & _ & Hs)]. by apply not_elem_of_nil in Hs.
  - rewrite orb_true_iff, sameValueZero_true, IH. split.
    + intros [-> | (s & -> & Hs)]; eexists; split; eauto using list_elem_of_here, list_elem_of_further.
    + intros (s & -> & Hs). apply elem_of_cons in Hs as [-> | Hs]; eauto.
Qed.

Lemma includes_str (xs : list string) (s : string) :
  includes xs (VStr s) = bool_decide (s ∈ xs).
Proof.
  apply eq_true_iff_eq. rewrite includes_true, bool_decide_eq_true.
  split; [intros (? & [= <-] & ?) | ]; eauto.
Qed.

Lemma resolveLocale_member (s : string) (locales : list string) (d : string) :
  s ∈ locales -> resolveLocale (VStr s) locales d = s.
Proof.
  intros Hs. unfold resolveLocale. simpl.
  rewrite includes_str, bool_decide_eq_true_2 by done. reflexivity.
Qed.

Lemma resolveLocale_default (v : jsval) (locales : list string) (d : string) :
  ~ (exists s, v = VStr s /\ s ∈ locales) -> resolveLocale v locales d = d.
Proof.
  intros Hn. unfold resolveLocale.
  destruct (includes locales v) eqn:Hi.
  - apply includes_true in Hi. contradiction.
  - rewrite andb_false_r. reflexivity.
Qed.

Lemma resolveLocale_cases (v : jsval) (locales : list string) (d : string) :
  resolveLocale v locales d = d \/
  (v = VStr (resolveLocale v locales d) /\ resolveLocale v locales d ∈ locales).
Proof.
  destruct (includes locales v) eqn:Hi.
  - right. apply includes_true in Hi as (s & -> & Hs).
    rewrite resolveLocale_member; auto.
  - left. apply resolveLocale_default. rewrite <- includes_true. congruence.
Qed.

Lemma Object_keys_elem {Msg} (m : gmap string Msg) (s : string) :
  s ∈ Object_keys m <-> s ∈ dom m.
Proof.
  unfold Object_keys. rewrite elem_of_dom, list_elem_of_fmap. split.
  - intros ([k x] & -> & H). apply elem_of_map_to_list in H. eauto.
  - intros [x Hx]. exists (s, x). split; [done | by apply elem_of_map_to_list].
Qed.

Lemma includes_keys {Msg} (m : gmap string Msg) (s : string) :
  includes (Object_keys m) (VStr s) = bool_decide (s ∈ dom m).
Proof.
  rewrite includes_str. apply bool_decide_ext, Object_keys_elem.
Qed.

(** ** The context store *)

Lemma ctx_of_set_i18n_same (c : CtxRef) (v : I18nVar) (w : World) :
  ctx_of (set_i18n c v w) c =
  {| req_cookies := req_cookies (ctx_of w c);
     var_i18n := Some v;
     var_other := var_other (ctx_of w c) |}.
Proof. unfold ctx_of, set_i18n. simpl. by rewrite lookup_insert_eq. Qed.

Lemma lookup_set_i18n_other (c c' : CtxRef) (v : I18nVar) (w : World) :
  c' ≠ c -> contexts (set_i18n c v w) !! c' = contexts w !! c'.
Proof. intros Hne. unfold set_i18n. simpl. by rewrite lookup_insert_ne. Qed.

Lemma globals_set_i18n (c : CtxRef) (v : I18nVar) (w : World) :
  globals (set_i18n c v w) = globals w.
Proof. reflexivity. Qed.

Lemma ctx_of_set_i18n_other (c c' : CtxRef) (v : I18nVar) (w : World) :
  c' ≠ c -> ctx_of (set_i18n c v w) c' = ctx_of w c'.
Proof. intros Hne. unfold ctx_of. by rewrite lookup_set_i18n_other. Qed.

Lemma bound_locale_set_i18n (c : CtxRef) (v : I18nVar) (w : World) :
  bound_locale (set_i18n c v w) c = Some (locale v).
Proof. unfold bound_locale. by rewrite ctx_of_set_i18n_same. Qed.

Lemma slot_state_set_i18n (c : CtxRef) (v : I18nVar) (w : World) :
  slot_state (set_i18n c v w) c = BOUND (locale v).
Proof. unfold slot_state. by rewrite ctx_of_set_i18n_same. Qed.

Lemma slot_state_set_i18n_other (c c' : CtxRef) (v : I18nVar) (w : World) :
  c' ≠ c -> slot_state (set_i18n c v w) c' = slot_state w c'.
Proof. intros Hne. unfold slot_state. by rewrite ctx_of_set_i18n_other. Qed.

(** ** The middleware, step by step *)

(** When the getter returns, the middleware writes the slot and then runs
    [next] in the store that holds the write. *)
Lemma middleware_run locales d (getLocale : GetLocale) c w v w1 :
  getLocale c locales d w = (Returns v, w1) ->
  forall next : Next,
    createI18nMiddleware locales d getLocale c next w =
    next (set_i18n c {| locale := resolveLocale v locales d |} w1).
Proof.
  intros Hg next. unfold createI18nMiddleware, bind. rewrite Hg. reflexivity.
Qed.

(** Running the middleware with [next] is running it with a [next] that
    does nothing, and then [next]. *)
Lemma middleware_then_next locales d (getLocale : GetLocale) c (next : Next) w :
  createI18nMiddleware locales d getLocale c next w =
  (createI18nMiddleware locales d getLocale c (ret tt) ;;; next) w.
Proof.
  unfold createI18nMiddleware, bind.
  by destruct (getLocale c locales d w) as [[v|e] w1].
Qed.

(** When the getter throws, nothing is written and [next] is not run. *)
Lemma middleware_getter_throws locales d (getLocale : GetLocale) c w e w1 :
  getLocale c locales d w = (Throws e, w1) ->
  forall next : Next,
    createI18nMiddleware locales d getLocale c next w = (Throws e, w1).
Proof.
  intros Hg next. unfold createI18nMiddleware, bind. rewrite Hg. reflexivity.
Qed.

Section Accessor.
Context {Msg TranslateFn : Type}.
Variable createTranslate : gmap string Msg -> string -> TranslateFn.

Lemma accessor_absent (messages : gmap string Msg) c w :
  var_i18n (ctx_of w c) = None ->
  createGetI18n createTranslate messages c w =
  (Throws (Error "createI18nMiddleware middleware not initialized"), w).
Proof.
  intros H. unfold createGetI18n, bind, c_get_i18n. rewrite H. reflexivity.
Qed.

Lemma accessor_present (messages : gmap string Msg) c w v :
  var_i18n (ctx_of w c) = Some v ->
  createGetI18n createTranslate messages c w =
  (Returns (createTranslate messages (locale v)), w).
Proof.
  intros H. unfold createGetI18n, bind, c_get_i18n. rewrite H. reflexivity.
Qed.

(** The accessor never writes. *)
Lemma accessor_reads_only (messages : gmap string Msg) c w :
  (createGetI18n createTranslate messages c w).2 = w.
Proof.
  destruct (var_i18n (ctx_of w c)) eqn:H.
  - by rewrite (accessor_present _ _ _ _ H).
  - by rewrite (accessor_absent _ _ _ H).
Qed.

(** What a successful construction returns. *)
Lemma createI18n_returns (o : I18nOptions Msg) (i : I18n TranslateFn) :
  createI18n createTranslate o = Returns i ->
  defaultLocale o ∈ dom (messages o) /\
  getI18n i = createGetI18n createTranslate (messages o) /\
  i18nMiddleware i =
    createI18nMiddleware (Object_keys (messages o)) (defaultLocale o)
      (getLocale o).
Proof.
  unfold createI18n. rewrite includes_keys.
  case_bool_decide as Hd; simpl; [|discriminate].
  intros [= <-]. auto.
Qed.

End Accessor.

(** * The properties of the specification *)

(** ** Locale resolution *)

(** C1: whatever value [v] the locale getter returns, the locale the
    middleware binds for the request is [v] when [v] is a string that is an
    exact member of the supported locales, and the default locale in every
    other case (a value that is not a string, or a string that is not in the
    list).  Membership is string equality: nothing else matches. *)
Theorem resolved_locale_exact_or_default
    (locales : list string) (d : string) (getLocale : GetLocale)
    (c : CtxRef) (w w1 : World) (v : jsval) :
  getLocale c locales d w = (Returns v, w1) ->
  exists (w2 : World) (l : string),
    (forall next : Next,
       createI18nMiddleware locales d getLocale c next w = next w2) /\
    bound_locale w2 c = Some l /\
    (forall s, v = VStr s -> s ∈ locales -> l = s) /\
    (~ (exists s, v = VStr s /\ s ∈ locales) -> l = d) /\
    (typeof v ≠ "string" -> l = d) /\
    (forall s, v = VStr s -> s ∉ locales -> l = d).
Proof.
  intros Hg.
  exists (set_i18n c {| locale := resolveLocale v locales d |} w1),
         (resolveLocale v locales d).
  split; [by apply middleware_run|].
  split; [by rewrite bound_locale_set_i18n|].
  split; [intros s -> Hs; by apply resolveLocale_member|].
  split; [apply resolveLocale_default|].
  split.
  - intros Hty. apply resolveLocale_default. intros (s & -> & _). by apply Hty.
  - intros s -> Hs. apply resolveLocale_default.
    intros (s' & [= <-] & Hs'). by apply Hs.
Qed.

(** The request of the tests with the cookie ["de-DE"]. *)
Lemma resolved_locale_exact_or_default_witness :
  exists (w2 : World) (l : string),
    (forall next : Next,
       createI18nMiddleware ["en-EN"; "de-DE"] "en-EN" cookieLocale 0 next
         (world_of {[ 0 := request (Some "de-DE") ]}) = next w2) /\
    bound_locale w2 0 = Some l /\
    (forall s, VStr "de-DE" = VStr s -> s ∈ ["en-EN"; "de-DE"] -> l = s) /\
    (~ (exists s, VStr "de-DE" = VStr s /\ s ∈ ["en-EN"; "de-DE"]) ->
     l = "en-EN") /\
    (typeof (VStr "de-DE") ≠ "string" -> l = "en-EN") /\
    (forall s, VStr "de-DE" = VStr s -> s ∉ ["en-EN"; "de-DE"] -> l = "en-EN").
Proof.
  apply (resolved_locale_exact_or_default ["en-EN"; "de-DE"] "en-EN"
           cookieLocale 0 (world_of {[ 0 := request (Some "de-DE") ]})
           (world_of {[ 0 := request (Some "de-DE") ]}) (VStr "de-DE")).
  vm_compute. reflexivity.
Defined.

(** No prefix, case-insensitive or parent-tag match: each of these signals
    resolves to the default. *)
Example resolveLocale_no_loose_match :
  resolveLocale (VStr "en-GB") ["en"; "de-DE"] "de-DE" = "de-DE" /\
  resolveLocale (VStr "EN-en") ["en-EN"; "de-DE"] "de-DE" = "de-DE" /\
  resolveLocale (VStr "en") ["en-EN"; "de-DE"] "de-DE" = "de-DE" /\
  resolveLocale (VStr "de-DE ") ["en-EN"; "de-DE"] "en-EN" = "en-EN" /\
  resolveLocale VNull ["en-EN"; "null"] "en-EN" = "en-EN" /\
  resolveLocale VUndefined ["en-EN"; "undefined"] "en-EN" = "en-EN" /\
  resolveLocale (VNum 1) ["en-EN"; "1"] "en-EN" = "en-EN".
Proof. repeat split; reflexivity. Qed.

(** ** Construction *)

Section Construction.
Context {Msg TranslateFn : Type}.
Variable createTranslate : gmap string Msg -> string -> TranslateFn.

(** C2: [createI18n] throws the error "defaultLocale is not available in
    messages" exactly when the default locale is not a key of the catalog;
    it throws in the call itself, in place of returning the middleware and
    the accessor, and it returns them exactly when the default locale is a
    key. *)
Theorem createI18n_throws_iff_default_missing (o : I18nOptions Msg) :
  (createI18n createTranslate o =
     Throws (Error "defaultLocale is not available in messages") <->
   defaultLocale o ∉ dom (messages o)) /\
  ((exists i, createI18n createTranslate o = Returns i) <->
   defaultLocale o ∈ dom (messages o)) /\
  (forall e, createI18n createTranslate o = Throws e ->
     e = Error "defaultLocale is not available in messages").
Proof.
  unfold createI18n. rewrite includes_keys.
  case_bool_decide as Hd; simpl.
  - split; [split; [discriminate | done]|].
    split; [split; eauto | discriminate].
  - split; [split; done|].
    split; [split; [intros [i [=]] | done] | by intros e [= <-]].
Qed.

End Construction.

Example createI18n_test_default_missing :
  createI18n lookupTranslate (test_options "tr-TR") =
  Throws (Error "defaultLocale is not available in messages").
Proof. vm_compute. reflexivity. Qed.

Lemma createI18n_test {TranslateFn : Type}
    (createTranslate : gmap string (gmap string string) -> string -> TranslateFn) :
  createI18n createTranslate (test_options "en-EN") =
  Returns (test_i18n createTranslate "en-EN").
Proof. reflexivity. Qed.

(** ** The context accessor *)

Section AccessorClaims.
Context {Msg TranslateFn : Type}.
Variable createTranslate : gmap string Msg -> string -> TranslateFn.

(** C3 (amended): called on a request whose slot is absent, the accessor
    throws, in the call itself, an error whose message is
    "createI18nMiddleware middleware not initialized"; it returns no
    translate function, for the default locale or any other, and leaves
    the slot absent. *)
Theorem accessor_fails_when_uninitialized
    (o : I18nOptions Msg) (i : I18n TranslateFn) (c : CtxRef) (w : World) :
  createI18n createTranslate o = Returns i ->
  slot_state w c = UNINITIALIZED ->
  getI18n i c w =
    (Throws (Error "createI18nMiddleware middleware not initialized"), w) /\
  (forall t, (getI18n i c w).1 ≠ Returns t) /\
  slot_state (getI18n i c w).2 c = UNINITIALIZED.
Proof.
  intros Hi Hs. apply createI18n_returns in Hi as (_ & -> & _).
  assert (var_i18n (ctx_of w c) = None) as Hv.
  { unfold slot_state in Hs. by destruct (var_i18n (ctx_of w c)). }
  rewrite (accessor_absent _ _ _ _ Hv). simpl. done.
Qed.

(** C4: on a request whose slot is present, the accessor reads the stored
    locale and returns what the translation factory gives for the catalog
    of the construction and that locale; the store is left as it was. *)
Theorem accessor_delegates_catalog_and_locale
    (o : I18nOptions Msg) (i : I18n TranslateFn) (c : CtxRef) (w : World)
    (v : I18nVar) :
  createI18n createTranslate o = Returns i ->
  var_i18n (ctx_of w c) = Some v ->
  getI18n i c w = (Returns (createTranslate (messages o) (locale v)), w).
Proof.
  intros Hi Hv. apply createI18n_returns in Hi as (_ & -> & _).
  by apply accessor_present.
Qed.

(** C5: the list of supported locales of the returned middleware is
    [Object.keys(messages)], taken when [createI18n] runs: it holds each
    key of the catalog once and nothing else, it is the list handed to the
    getter, and on every request the membership test is made against it. *)
Theorem supported_locales_are_catalog_keys
    (o : I18nOptions Msg) (i : I18n TranslateFn) :
  createI18n createTranslate o = Returns i ->
  i18nMiddleware i =
    createI18nMiddleware (Object_keys (messages o)) (defaultLocale o)
      (getLocale o) /\
  NoDup (Object_keys (messages o)) /\
  (forall s, s ∈ Object_keys (messages o) <-> s ∈ dom (messages o)) /\
  (forall c w v w1,
     getLocale o c (Object_keys (messages o)) (defaultLocale o) w
       = (Returns v, w1) ->
     exists w2,
       (forall next : Next, i18nMiddleware i c next w = next w2) /\
       bound_locale w2 c =
         Some match v with
              | VStr s =>
                  if bool_decide (s ∈ dom (messages o)) then s
                  else defaultLocale o
              | _ => defaultLocale o
              end).
Proof.
  intros Hi. apply createI18n_returns in Hi as (_ & _ & ->).
  split; [done|].
  split; [apply NoDup_fst_map_to_list|].
  split; [apply Object_keys_elem|].
  intros c w v w1 Hg. eexists. split; [by apply middleware_run|].
  rewrite bound_locale_set_i18n. simpl. f_equal.
  destruct v as [| | | |s]; try reflexivity.
  unfold resolveLocale. simpl. by rewrite includes_keys.
Qed.

End AccessorClaims.

(** C3 as the spec words it: on a request for which the middleware never
    ran, the error the accessor throws does not have the message
    "middleware not initialized"; the message is longer. *)
Lemma accessor_message_is_not_the_short_one :
  slot_state (world_of ∅) 0 = UNINITIALIZED /\
  (getI18n (test_i18n lookupTranslate "en-EN") 0 (world_of ∅)).1 ≠
    Throws (Error "middleware not initialized") /\
  (getI18n (test_i18n lookupTranslate "en-EN") 0 (world_of ∅)).1 =
    Throws (Error "createI18nMiddleware middleware not initialized").
Proof.
  split; [reflexivity|]. split; [vm_compute; discriminate | reflexivity].
Qed.

(** A request without the middleware, as in the test of [getI18n]. *)
Lemma accessor_fails_when_uninitialized_witness :
  getI18n (test_i18n lookupTranslate "en-EN") 0 (world_of ∅) =
    (Throws (Error "createI18nMiddleware middleware not initialized"),
     world_of ∅) /\
  (forall t,
     (getI18n (test_i18n lookupTranslate "en-EN") 0 (world_of ∅)).1
     ≠ Returns t) /\
  slot_state (getI18n (test_i18n lookupTranslate "en-EN") 0 (world_of ∅)).2 0
    = UNINITIALIZED.
Proof.
  apply (accessor_fails_when_uninitialized lookupTranslate
           (test_options "en-EN") (test_i18n lookupTranslate "en-EN") 0
           (world_of ∅)).
  - reflexivity.
  - reflexivity.
Defined.

(** A bound request, and an engine that shows what it was given. *)
Lemma accessor_delegates_catalog_and_locale_witness :
  getI18n (test_i18n recordTranslate "en-EN") 7
    (world_of {[ 7 := bound_request "de-DE" ]})
  = (Returns (test_messages, "de-DE"),
     world_of {[ 7 := bound_request "de-DE" ]}).
Proof.
  apply (accessor_delegates_catalog_and_locale recordTranslate
           (test_options "en-EN") (test_i18n recordTranslate "en-EN") 7
           (world_of {[ 7 := bound_request "de-DE" ]})
           {| locale := "de-DE" |}).
  - reflexivity.
  - reflexivity.
Defined.

(** The instance of the tests. *)
Lemma supported_locales_are_catalog_keys_witness :
  i18nMiddleware (test_i18n lookupTranslate "en-EN") =
    createI18nMiddleware (Object_keys test_messages) "en-EN" cookieLocale /\
  NoDup (Object_keys test_messages) /\
  (forall s, s ∈ Object_keys test_messages <-> s ∈ dom test_messages) /\
  (forall c w v w1,
     cookieLocale c (Object_keys test_messages) "en-EN" w = (Returns v, w1) ->
     exists w2,
       (forall next : Next,
          i18nMiddleware (test_i18n lookupTranslate "en-EN") c next w
            = next w2) /\
       bound_locale w2 c =
         Some match v with
              | VStr s =>
                  if bool_decide (s ∈ dom test_messages) then s else "en-EN"
              | _ => "en-EN"
              end).
Proof.
  apply (supported_locales_are_catalog_keys lookupTranslate
           (test_options "en-EN") (test_i18n lookupTranslate "en-EN")).
  reflexivity.
Defined.

(** ** Schedules of binds and accesses *)

Section Schedules.
Context {Msg TranslateFn : Type}.
Variable createTranslate : gmap string Msg -> string -> TranslateFn.
Variable o : I18nOptions Msg.
Variable i : I18n TranslateFn.
Variable signal : gmap string string -> jsval.
Hypothesis Hcreate : createI18n createTranslate o = Returns i.
Hypothesis Hreads : reads_request (getLocale o) signal.

Local Abbreviation expected :=
  (request_locale signal (Object_keys (messages o)) (defaultLocale o)).

Lemma run_op_bind c w :
  run_op i (Bind c) w =
  (Bind_done c (Returns tt), set_i18n c {| locale := expected w c |} w).
Proof.
  destruct (createI18n_returns _ _ _ Hcreate) as (_ & _ & Hm).
  unfold run_op. rewrite Hm.
  rewrite (middleware_run _ _ _ _ _ _ _ (Hreads c _ _ w)). reflexivity.
Qed.

Lemma run_op_access_world c w : (run_op i (Access c) w).2 = w.
Proof.
  destruct (createI18n_returns _ _ _ Hcreate) as (_ & Ha & _).
  unfold run_op. rewrite Ha.
  pose proof (accessor_reads_only createTranslate (messages o) c w) as H.
  destruct (createGetI18n createTranslate (messages o) c w). exact H.
Qed.

Lemma run_op_cookies op w c :
  req_cookies (ctx_of (run_op i op w).2 c) = req_cookies (ctx_of w c).
Proof.
  destruct op as [c0|c0].
  - rewrite run_op_bind. simpl. destruct (decide (c = c0)) as [->|Hne].
    + by rewrite ctx_of_set_i18n_same.
    + by rewrite ctx_of_set_i18n_other.
  - by rewrite run_op_access_world.
Qed.

Lemma run_op_slot_other op w c :
  op ≠ Bind c ->
  var_i18n (ctx_of (run_op i op w).2 c) = var_i18n (ctx_of w c).
Proof.
  intros Hop. destruct op as [c0|c0].
  - rewrite run_op_bind. simpl. rewrite ctx_of_set_i18n_other; [done|congruence].
  - by rewrite run_op_access_world.
Qed.

Lemma expected_run_op op w c : expected (run_op i op w).2 c = expected w c.
Proof. unfold request_locale. by rewrite run_op_cookies. Qed.

Lemma run_schedule_cons op ops w :
  run_schedule i (op :: ops) w =
  ((run_op i op w).1 :: (run_schedule i ops (run_op i op w).2).1,
   (run_schedule i ops (run_op i op w).2).2).
Proof.
  simpl. destruct (run_op i op w) as [ob w']. simpl.
  by destruct (run_schedule i ops w').
Qed.

Lemma run_schedule_app ops1 ops2 w :
  run_schedule i (ops1 ++ ops2) w =
  ((run_schedule i ops1 w).1
     ++ (run_schedule i ops2 (run_schedule i ops1 w).2).1,
   (run_schedule i ops2 (run_schedule i ops1 w).2).2).
Proof.
  revert w. induction ops1 as [|op ops1 IH]; intros w.
  - simpl. by destruct (run_schedule i ops2 w).
  - rewrite <- app_comm_cons, !run_schedule_cons, IH. reflexivity.
Qed.

Lemma run_schedule_length ops w :
  length (run_schedule i ops w).1 = length ops.
Proof.
  revert w. induction ops as [|op ops IH]; intros w; [done|].
  rewrite run_schedule_cons. simpl. by rewrite IH.
Qed.

(** The store after a schedule: cookies as before, the slot of every
    request whose middleware ran holds that request's own locale, every
    other slot is as before. *)
Lemma run_schedule_state ops w :
  (forall c, req_cookies (ctx_of (run_schedule i ops w).2 c)
             = req_cookies (ctx_of w c)) /\
  (forall c, Bind c ∈ ops ->
     var_i18n (ctx_of (run_schedule i ops w).2 c)
     = Some {| locale := expected w c |}) /\
  (forall c, Bind c ∉ ops ->
     var_i18n (ctx_of (run_schedule i ops w).2 c) = var_i18n (ctx_of w c)).
Proof.
  revert w. induction ops as [|op ops IH]; intros w.
  - simpl. split; [done|]. split; [|done].
    intros c Hc. by apply not_elem_of_nil in Hc.
  - rewrite run_schedule_cons. simpl.
    destruct (IH (run_op i op w).2) as (IHc & IHb & IHn).
    split; [intros c; by rewrite IHc, run_op_cookies|]. split.
    + intros c Hc. destruct (decide (Bind c ∈ ops)) as [Hin|Hnin].
      * by rewrite (IHb c Hin), expected_run_op.
      * apply elem_of_cons in Hc as [<-|Hc]; [|done].
        rewrite (IHn c Hnin), run_op_bind. simpl.
        by rewrite ctx_of_set_i18n_same.
    + intros c Hc. apply not_elem_of_cons in Hc as [Hop Hc].
      rewrite (IHn c Hc). apply run_op_slot_other. congruence.
Qed.

Lemma run_schedule_access_after_bind pre post c w :
  Bind c ∈ pre ->
  (run_schedule i (pre ++ Access c :: post) w).1 !! length pre =
  Some (Accessed c
          (Returns (createTranslate (messages o) (expected w c)))).
Proof.
  intros Hb. rewrite run_schedule_app. cbn [fst snd].
  rewrite lookup_app_r by (rewrite run_schedule_length; lia).
  rewrite run_schedule_length, Nat.sub_diag, run_schedule_cons.
  cbn [fst snd lookup list_lookup].
  destruct (run_schedule_state pre w) as (_ & Hbound & _).
  destruct (createI18n_returns _ _ _ Hcreate) as (_ & Ha & _).
  unfold run_op. rewrite Ha.
  by rewrite (accessor_present _ _ _ _ _ (Hbound c Hb)).
Qed.

Lemma slot_trace_app c ops1 ops2 w :
  slot_trace i c (ops1 ++ ops2) w =
  slot_trace i c ops1 w ++ slot_trace i c ops2 (run_schedule i ops1 w).2.
Proof.
  revert w. induction ops1 as [|op ops1 IH]; intros w; [done|].
  rewrite <- app_comm_cons, run_schedule_cons. cbn [slot_trace snd].
  by rewrite IH.
Qed.

(** Steps that are not the bind of [c] leave the slot of [c] alone. *)
Lemma slot_trace_no_bind c ops w :
  Bind c ∉ ops ->
  slot_trace i c ops w = replicate (length ops) (slot_state w c).
Proof.
  revert w. induction ops as [|op ops IH]; intros w Hn; [done|].
  apply not_elem_of_cons in Hn as [Hop Hn]. simpl.
  assert (slot_state (run_op i op w).2 c = slot_state w c) as Hs.
  { unfold slot_state. rewrite run_op_slot_other; [done|congruence]. }
  by rewrite (IH _ Hn), Hs.
Qed.

(** Once bound, bound for good. *)
Lemma slot_state_stays_bound c ops w :
  slot_state w c ≠ UNINITIALIZED ->
  slot_state (run_schedule i ops w).2 c ≠ UNINITIALIZED.
Proof.
  intros Hb. destruct (run_schedule_state ops w) as (_ & Hbound & Hsame).
  unfold slot_state in *. destruct (decide (Bind c ∈ ops)) as [Hin|Hnin].
  - by rewrite (Hbound c Hin).
  - by rewrite (Hsame c Hnin).
Qed.

Lemma slot_state_no_bind c ops w :
  Bind c ∉ ops -> slot_state (run_schedule i ops w).2 c = slot_state w c.
Proof.
  intros Hn. destruct (run_schedule_state ops w) as (_ & _ & Hsame).
  unfold slot_state. by rewrite (Hsame c Hn).
Qed.

End Schedules.

Lemma cookieLocale_reads_request : reads_request cookieLocale cookieSignal.
Proof. intros c locales d w. reflexivity. Qed.

(** ** Binding a request *)

Section BinderClaims.
Context {Msg TranslateFn : Type}.
Variable createTranslate : gmap string Msg -> string -> TranslateFn.

(** C6: the middleware writes the resolved locale into the slot of its
    request before it calls [next]: [next] runs in a store in which the
    slot is bound, so the accessor called from there returns. *)
Theorem slot_written_before_next
    (locales : list string) (d : string) (getLocale : GetLocale)
    (c : CtxRef) (w w1 : World) (v : jsval) :
  getLocale c locales d w = (Returns v, w1) ->
  exists w2 : World,
    (forall next : Next,
       createI18nMiddleware locales d getLocale c next w = next w2) /\
    slot_state w2 c = BOUND (resolveLocale v locales d) /\
    slot_state w2 c ≠ UNINITIALIZED /\
    (forall messages : gmap string Msg,
       createGetI18n createTranslate messages c w2 =
       (Returns (createTranslate messages (resolveLocale v locales d)), w2)).
Proof.
  intros Hg. eexists. split; [by apply middleware_run|].
  rewrite slot_state_set_i18n. simpl. split; [done|]. split; [done|].
  intros messages. apply (accessor_present createTranslate messages c _
    {| locale := resolveLocale v locales d |}).
  by rewrite ctx_of_set_i18n_same.
Qed.

(** C7: the one effect of the middleware on the store is the write of the
    ["i18n"] variable of the context it was called with: every other
    context, and the cookies and the other variables of this one, are as
    the getter left them.  So with a getter that reads its own request,
    however the steps of several requests interleave, an access made
    after the bind of its request gets that request's own locale. *)
Theorem bind_writes_only_own_slot
    (o : I18nOptions Msg) (i : I18n TranslateFn) :
  createI18n createTranslate o = Returns i ->
  (forall c w v w1,
     getLocale o c (Object_keys (messages o)) (defaultLocale o) w
       = (Returns v, w1) ->
     exists w2 : World,
       (forall next : Next, i18nMiddleware i c next w = next w2) /\
       (forall c', c' ≠ c -> contexts w2 !! c' = contexts w1 !! c') /\
       globals w2 = globals w1 /\
       req_cookies (ctx_of w2 c) = req_cookies (ctx_of w1 c) /\
       var_other (ctx_of w2 c) = var_other (ctx_of w1 c) /\
       bound_locale w2 c =
         Some (resolveLocale v (Object_keys (messages o)) (defaultLocale o)))
  /\
  (forall signal, reads_request (getLocale o) signal ->
   forall pre post c w,
     Bind c ∈ pre ->
     (run_schedule i (pre ++ Access c :: post) w).1 !! length pre =
     Some (Accessed c
             (Returns (createTranslate (messages o)
                (request_locale signal (Object_keys (messages o))
                   (defaultLocale o) w c))))).
Proof.
  intros Hi. split.
  - intros c w v w1 Hg.
    destruct (createI18n_returns _ _ _ Hi) as (_ & _ & ->).
    eexists. split; [by apply middleware_run|].
    split; [intros c' Hne; by apply lookup_set_i18n_other|].
    rewrite bound_locale_set_i18n, ctx_of_set_i18n_same. done.
  - intros signal Hr pre post c w Hb.
    by apply run_schedule_access_after_bind.
Qed.

(** C8: in the life of a request (its context starts without the slot,
    the middleware runs once for it, handlers call the accessor, and the
    steps of other requests come in between) the slot goes from absent to
    bound at the bind and keeps that one value from then on; an access
    leaves the whole store as it was, and no schedule at all takes a bound
    slot back to absent. *)
Theorem slot_bound_once
    (o : I18nOptions Msg) (i : I18n TranslateFn)
    (signal : gmap string string -> jsval)
    (pre post : list Op) (c : CtxRef) (w : World) :
  createI18n createTranslate o = Returns i ->
  reads_request (getLocale o) signal ->
  slot_state w c = UNINITIALIZED ->
  Bind c ∉ pre ->
  Bind c ∉ post ->
  let l := request_locale signal (Object_keys (messages o))
             (defaultLocale o) w c in
  slot_trace i c (pre ++ Bind c :: post) w =
    replicate (length pre) UNINITIALIZED
      ++ BOUND l :: replicate (length post) (BOUND l) /\
  (forall c' w', (run_op i (Access c') w').2 = w') /\
  (forall ops c' w',
     slot_state w' c' ≠ UNINITIALIZED ->
     slot_state (run_schedule i ops w').2 c' ≠ UNINITIALIZED).
Proof.
  intros Hi Hr Hs Hpre Hpost l. split; [|split].
  - rewrite slot_trace_app.
    rewrite (slot_trace_no_bind createTranslate o i signal Hi Hr) by done.
    rewrite Hs. f_equal. cbn [slot_trace].
    rewrite (run_op_bind createTranslate o i signal Hi Hr). cbn [snd].
    rewrite (slot_trace_no_bind createTranslate o i signal Hi Hr) by done.
    rewrite slot_state_set_i18n. cbn [locale].
    destruct (run_schedule_state createTranslate o i signal Hi Hr pre w)
      as (Hc & _ & _).
    assert (request_locale signal (Object_keys (messages o))
              (defaultLocale o) (run_schedule i pre w).2 c = l) as ->; [|done].
    unfold l, request_locale. by rewrite Hc.
  - intros c' w'. by apply (run_op_access_world createTranslate o i Hi).
  - intros ops c' w' Hb.
    by apply (slot_state_stays_bound createTranslate o i signal Hi Hr).
Qed.

(** C9: when the construction succeeded, the locale the middleware binds
    is a key of the catalog, so the accessor hands the translation
    factory a locale that the catalog has. *)
Theorem bound_locale_is_catalog_key
    (o : I18nOptions Msg) (i : I18n TranslateFn)
    (c : CtxRef) (w w1 : World) (v : jsval) :
  createI18n createTranslate o = Returns i ->
  getLocale o c (Object_keys (messages o)) (defaultLocale o) w
    = (Returns v, w1) ->
  exists (w2 : World) (l : string),
    (forall next : Next, i18nMiddleware i c next w = next w2) /\
    bound_locale w2 c = Some l /\
    l ∈ dom (messages o) /\
    is_Some (messages o !! l) /\
    getI18n i c w2 = (Returns (createTranslate (messages o) l), w2).
Proof.
  intros Hi Hg.
  destruct (createI18n_returns _ _ _ Hi) as (Hd & -> & ->).
  assert (resolveLocale v (Object_keys (messages o)) (defaultLocale o)
            ∈ dom (messages o)) as Hl.
  { destruct (resolveLocale_cases v (Object_keys (messages o))
                (defaultLocale o)) as [Heq | [_ Hin]].
    - by rewrite Heq.
    - by apply Object_keys_elem. }
  set (l := resolveLocale v (Object_keys (messages o)) (defaultLocale o))
    in *.
  exists (set_i18n c {| locale := l |} w1), l.
  split; [by apply middleware_run|].
  split; [by rewrite bound_locale_set_i18n|].
  split; [done|]. split; [by apply elem_of_dom|].
  apply (accessor_present createTranslate (messages o) c _ {| locale := l |}).
  by rewrite ctx_of_set_i18n_same.
Qed.

End BinderClaims.

(** C10: with an empty list of supported locales the membership test fails
    for every value, so the resolution gives the default locale; the
    middleware binds it and goes on to [next], and throws nothing of its
    own. *)
Theorem empty_locales_bind_default
    (d : string) (getLocale : GetLocale) (c : CtxRef) (w w1 : World)
    (v : jsval) :
  getLocale c [] d w = (Returns v, w1) ->
  (forall v' : jsval, includes [] v' = false /\ resolveLocale v' [] d = d) /\
  (forall next : Next,
     createI18nMiddleware [] d getLocale c next w =
     next (set_i18n c {| locale := d |} w1)) /\
  bound_locale (set_i18n c {| locale := d |} w1) c = Some d /\
  (createI18nMiddleware [] d getLocale c (ret tt) w).1 = Returns tt.
Proof.
  intros Hg.
  assert (forall v', resolveLocale v' [] d = d) as Hres.
  { intros v'. unfold resolveLocale. simpl. by rewrite andb_false_r. }
  split; [intros v'; by split|].
  assert (forall next : Next,
            createI18nMiddleware [] d getLocale c next w =
            next (set_i18n c {| locale := d |} w1)) as Hrun.
  { intros next. rewrite (middleware_run _ _ _ _ _ _ _ Hg). by rewrite Hres. }
  split; [done|]. split; [by rewrite bound_locale_set_i18n|].
  by rewrite Hrun.
Qed.

(** ** The properties at the set-up of the tests *)

(** The request of the tests with the cookie ["tr-TR"]. *)
Lemma slot_written_before_next_witness :
  exists w2 : World,
    (forall next : Next,
       createI18nMiddleware ["en-EN"; "de-DE"] "en-EN" cookieLocale 0 next
         (world_of {[ 0 := request (Some "tr-TR") ]}) = next w2) /\
    slot_state w2 0 = BOUND "en-EN" /\
    slot_state w2 0 ≠ UNINITIALIZED /\
    (forall messages : gmap string (gmap string string),
       createGetI18n lookupTranslate messages 0 w2 =
       (Returns (lookupTranslate messages "en-EN"), w2)).
Proof.
  apply (slot_written_before_next lookupTranslate ["en-EN"; "de-DE"] "en-EN"
           cookieLocale 0 (world_of {[ 0 := request (Some "tr-TR") ]})
           (world_of {[ 0 := request (Some "tr-TR") ]}) (VStr "tr-TR")).
  vm_compute. reflexivity.
Defined.

(** Two requests whose binds both come before their accesses. *)
Lemma bind_writes_only_own_slot_witness :
  (forall c w v w1,
     cookieLocale c (Object_keys test_messages) "en-EN" w = (Returns v, w1) ->
     exists w2 : World,
       (forall next : Next,
          i18nMiddleware (test_i18n lookupTranslate "en-EN") c next w
            = next w2) /\
       (forall c', c' ≠ c -> contexts w2 !! c' = contexts w1 !! c') /\
       globals w2 = globals w1 /\
       req_cookies (ctx_of w2 c) = req_cookies (ctx_of w1 c) /\
       var_other (ctx_of w2 c) = var_other (ctx_of w1 c) /\
       bound_locale w2 c =
         Some (resolveLocale v (Object_keys test_messages) "en-EN")) /\
  (run_schedule (test_i18n lookupTranslate "en-EN")
     [Bind 1; Bind 2; Access 1; Access 2] two_requests).1 !! 2 =
    Some (Accessed 1 (Returns (lookupTranslate test_messages "de-DE"))) /\
  (run_schedule (test_i18n lookupTranslate "en-EN")
     [Bind 1; Bind 2; Access 1; Access 2] two_requests).1 !! 3 =
    Some (Accessed 2 (Returns (lookupTranslate test_messages "en-EN"))).
Proof.
  destruct (bind_writes_only_own_slot lookupTranslate (test_options "en-EN")
              (test_i18n lookupTranslate "en-EN") eq_refl) as [Hframe Hiso].
  split; [exact Hframe|]. split.
  - apply (Hiso cookieSignal cookieLocale_reads_request
             [Bind 1; Bind 2] [Access 2] 1 two_requests).
    apply list_elem_of_here.
  - apply (Hiso cookieSignal cookieLocale_reads_request
             [Bind 1; Bind 2; Access 1] [] 2 two_requests).
    apply list_elem_of_further, list_elem_of_here.
Defined.

(** Request 1 among the steps of request 2. *)
Lemma slot_bound_once_witness :
  slot_trace (test_i18n lookupTranslate "en-EN") 1
    ([Bind 2; Access 1] ++ Bind 1 :: [Access 1; Access 2; Bind 2])
    two_requests =
  [UNINITIALIZED; UNINITIALIZED; BOUND "de-DE";
   BOUND "de-DE"; BOUND "de-DE"; BOUND "de-DE"] /\
  (forall c' w',
     (run_op (test_i18n lookupTranslate "en-EN") (Access c') w').2 = w') /\
  (forall ops c' w',
     slot_state w' c' ≠ UNINITIALIZED ->
     slot_state (run_schedule (test_i18n lookupTranslate "en-EN") ops w').2 c'
     ≠ UNINITIALIZED).
Proof.
  apply (slot_bound_once lookupTranslate (test_options "en-EN")
           (test_i18n lookupTranslate "en-EN") cookieSignal
           [Bind 2; Access 1] [Access 1; Access 2; Bind 2] 1 two_requests).
  - reflexivity.
  - exact cookieLocale_reads_request.
  - reflexivity.
  - apply (bool_decide_unpack _). vm_compute. exact I.
  - apply (bool_decide_unpack _). vm_compute. exact I.
Defined.

(** The request with the unsupported cookie ["tr-TR"]. *)
Lemma bound_locale_is_catalog_key_witness :
  exists (w2 : World) (l : string),
    (forall next : Next,
       i18nMiddleware (test_i18n recordTranslate "en-EN") 2 next two_requests
         = next w2) /\
    bound_locale w2 2 = Some l /\
    l ∈ dom test_messages /\
    is_Some (test_messages !! l) /\
    getI18n (test_i18n recordTranslate "en-EN") 2 w2
      = (Returns (test_messages, l), w2).
Proof.
  apply (bound_locale_is_catalog_key recordTranslate (test_options "en-EN")
           (test_i18n recordTranslate "en-EN") 2 two_requests two_requests
           (VStr "tr-TR")).
  - reflexivity.
  - vm_compute. reflexivity.
Defined.

(** The middleware built over no locales at all. *)
Lemma empty_locales_bind_default_witness :
  (forall v' : jsval,
     includes [] v' = false /\ resolveLocale v' [] "en-EN" = "en-EN") /\
  (forall next : Next,
     createI18nMiddleware [] "en-EN" cookieLocale 1 next two_requests =
     next (set_i18n 1 {| locale := "en-EN" |} two_requests)) /\
  bound_locale (set_i18n 1 {| locale := "en-EN" |} two_requests) 1
    = Some "en-EN" /\
  (createI18nMiddleware [] "en-EN" cookieLocale 1 (ret tt) two_requests).1
    = Returns tt.
Proof.
  apply (empty_locales_bind_default "en-EN" cookieLocale 1 two_requests
           two_requests (VStr "de-DE")).
  vm_compute. reflexivity.
Defined.

(** ** The end-to-end cases of the tests *)

Example serve_supported_locale :
  exists w',
    serve (test_i18n lookupTranslate "en-EN") 0
      (world_of {[ 0 := request (Some "de-DE") ]}) = (Returns "Hallo!", w') /\
    bound_locale w' 0 = Some "de-DE".
Proof. eexists. split; vm_compute; reflexivity. Qed.

Example serve_default_locale_cookie :
  exists w',
    serve (test_i18n lookupTranslate "en-EN") 0
      (world_of {[ 0 := request (Some "en-EN") ]}) = (Returns "Hi!", w') /\
    bound_locale w' 0 = Some "en-EN".
Proof. eexists. split; vm_compute; reflexivity. Qed.

Example serve_unsupported_locale :
  exists w',
    serve (test_i18n lookupTranslate "en-EN") 0
      (world_of {[ 0 := request (Some "tr-TR") ]}) = (Returns "Hi!", w') /\
    bound_locale w' 0 = Some "en-EN".
Proof. eexists. split; vm_compute; reflexivity. Qed.

Example serve_no_cookie :
  exists w',
    serve (test_i18n lookupTranslate "en-EN") 0 (world_of {[ 0 := request None ]})
      = (Returns "Hi!", w') /\
    bound_locale w' 0 = Some "en-EN".
Proof. eexists. split; vm_compute; reflexivity. Qed.

Example greet_without_middleware :
  greet (getI18n (test_i18n lookupTranslate "en-EN")) 0
    (world_of {[ 0 := request (Some "de-DE") ]}) =
  (Throws (Error "createI18nMiddleware middleware not initialized"),
   (world_of {[ 0 := request (Some "de-DE") ]})).
Proof. vm_compute. reflexivity. Qed.

(** * Further properties of the code *)

(** ** Writes to the slot *)

Lemma set_i18n_twice (c : CtxRef) (v1 v2 : I18nVar) (w : World) :
  set_i18n c v2 (set_i18n c v1 w) = set_i18n c v2 w.
Proof.
  unfold set_i18n at 1. rewrite ctx_of_set_i18n_same. cbn [req_cookies var_other].
  unfold set_i18n. cbn [contexts globals]. by rewrite insert_insert_eq.
Qed.

Lemma set_i18n_commute (c1 c2 : CtxRef) (v1 v2 : I18nVar) (w : World) :
  c1 ≠ c2 ->
  set_i18n c1 v1 (set_i18n c2 v2 w) = set_i18n c2 v2 (set_i18n c1 v1 w).
Proof.
  intros Hne. unfold set_i18n at 1 3.
  rewrite !ctx_of_set_i18n_other by done.
  unfold set_i18n. cbn [contexts globals]. by rewrite insert_insert_ne.
Qed.

Lemma req_cookies_set_i18n (c c' : CtxRef) (v : I18nVar) (w : World) :
  req_cookies (ctx_of (set_i18n c v w) c') = req_cookies (ctx_of w c').
Proof.
  destruct (decide (c' = c)) as [->|Hne].
  - by rewrite ctx_of_set_i18n_same.
  - by rewrite ctx_of_set_i18n_other.
Qed.

(** The middleware with a getter that reads its request. *)
Lemma middleware_run_reads locales d (getLocale : GetLocale) signal c w :
  reads_request getLocale signal ->
  forall next : Next,
    createI18nMiddleware locales d getLocale c next w =
    next (set_i18n c {| locale := request_locale signal locales d w c |} w).
Proof. intros Hr next. by rewrite (middleware_run _ _ _ _ _ _ _ (Hr c _ _ w)). Qed.

(** ** Resolution *)

(** X1: whatever the getter's value, the resolved locale is the default or
    one of the supported locales, and resolving the resolved locale again
    gives it back. *)
Theorem resolveLocale_candidate_and_stable
    (v : jsval) (locales : list string) (d : string) :
  resolveLocale v locales d ∈ d :: locales /\
  resolveLocale (VStr (resolveLocale v locales d)) locales d
    = resolveLocale v locales d.
Proof.
  destruct (resolveLocale_cases v locales d) as [Hd | [_ Hin]].
  - rewrite Hd. split; [apply list_elem_of_here|].
    destruct (resolveLocale_cases (VStr d) locales d) as [H | [[= H] _]]; congruence.
  - split; [by apply list_elem_of_further|]. by apply resolveLocale_member.
Qed.

(** X2: the resolution looks only at which strings the list of locales
    holds: two lists with the same members, in any order and with any
    repetition, resolve every value alike. *)
Theorem resolveLocale_same_members
    (v : jsval) (locales locales' : list string) (d : string) :
  (forall s, s ∈ locales <-> s ∈ locales') ->
  resolveLocale v locales d = resolveLocale v locales' d.
Proof.
  intros Hsame.
  assert (includes locales v = includes locales' v) as Hi.
  { apply eq_true_iff_eq. rewrite !includes_true.
    split; intros (s & -> & Hs); exists s; split; auto; by apply Hsame. }
  unfold resolveLocale. by rewrite Hi.
Qed.

Lemma resolveLocale_same_members_witness :
  resolveLocale (VStr "de-DE") ["en-EN"; "de-DE"] "en-EN" =
  resolveLocale (VStr "de-DE") ["de-DE"; "en-EN"; "de-DE"] "en-EN".
Proof.
  apply (resolveLocale_same_members (VStr "de-DE") ["en-EN"; "de-DE"]
           ["de-DE"; "en-EN"; "de-DE"] "en-EN").
  intros s. rewrite !elem_of_cons, !elem_of_nil. tauto.
Defined.

(** ** Construction *)

Section ConstructionExtras.
Context {Msg TranslateFn : Type}.
Variable createTranslate : gmap string Msg -> string -> TranslateFn.

(** X3: with an empty catalog [createI18n] throws, whatever the default
    locale and the getter are. *)
Theorem createI18n_empty_catalog (d : string) (g : GetLocale) :
  createI18n createTranslate
    {| messages := ∅; defaultLocale := d; getLocale := g |} =
  Throws (Error "defaultLocale is not available in messages").
Proof.
  unfold createI18n. cbn [messages defaultLocale].
  rewrite includes_keys, bool_decide_eq_false_2; [done|].
  rewrite dom_empty_L. apply not_elem_of_empty.
Qed.

(** X4: the middleware that [createI18n] returns never works with an empty
    list of locales: the list it closes over holds the default locale. *)
Theorem constructed_locales_nonempty
    (o : I18nOptions Msg) (i : I18n TranslateFn) :
  createI18n createTranslate o = Returns i ->
  Object_keys (messages o) ≠ [] /\
  defaultLocale o ∈ Object_keys (messages o) /\
  includes (Object_keys (messages o)) (VStr (defaultLocale o)) = true /\
  i18nMiddleware i =
    createI18nMiddleware (Object_keys (messages o)) (defaultLocale o)
      (getLocale o).
Proof.
  intros Hi. destruct (createI18n_returns _ _ _ Hi) as (Hd & _ & Hm).
  apply Object_keys_elem in Hd.
  split; [intros Hnil; rewrite Hnil in Hd; by apply not_elem_of_nil in Hd|].
  split; [done|]. split; [|done].
  apply includes_true. eauto.
Qed.

(** X5: a string is resolved to itself against the keys of a catalog that
    was given an entry for it, and to the default against the keys of a
    catalog from which its entry was removed. *)
Theorem catalog_entry_decides_resolution
    (catalog : gmap string Msg) (k d : string) (m : Msg) :
  resolveLocale (VStr k) (Object_keys (<[k := m]> catalog)) d = k /\
  resolveLocale (VStr k) (Object_keys (delete k catalog)) d = d.
Proof.
  split.
  - apply resolveLocale_member, Object_keys_elem.
    rewrite dom_insert_L. set_solver.
  - apply resolveLocale_default. intros (s & [= <-] & Hs).
    apply Object_keys_elem, elem_of_dom in Hs as [x Hx].
    by rewrite lookup_delete_eq in Hx.
Qed.

End ConstructionExtras.

Lemma constructed_locales_nonempty_witness :
  Object_keys test_messages ≠ [] /\
  "en-EN" ∈ Object_keys test_messages /\
  includes (Object_keys test_messages) (VStr "en-EN") = true /\
  i18nMiddleware (test_i18n lookupTranslate "en-EN") =
    createI18nMiddleware (Object_keys test_messages) "en-EN" cookieLocale.
Proof.
  apply (constructed_locales_nonempty lookupTranslate (test_options "en-EN")
           (test_i18n lookupTranslate "en-EN")).
  reflexivity.
Defined.

(** ** The middleware and the accessor together *)

Section FlowExtras.
Context {Msg TranslateFn : Type}.
Variable createTranslate : gmap string Msg -> string -> TranslateFn.

(** X6: when the getter throws, the middleware throws the same error
    without running [next] and without writing: the slot is as the getter
    left it, so on a request that had no slot the accessor still fails. *)
Theorem getter_error_leaves_request_unbound
    (locales : list string) (d : string) (getLocale : GetLocale)
    (c : CtxRef) (w w1 : World) (e : JsError) :
  getLocale c locales d w = (Throws e, w1) ->
  (forall next : Next,
     createI18nMiddleware locales d getLocale c next w = (Throws e, w1)) /\
  (slot_state w1 c = UNINITIALIZED ->
   forall (messages : gmap string Msg) (next : Next),
     createGetI18n createTranslate messages c
       (createI18nMiddleware locales d getLocale c next w).2 =
     (Throws (Error "createI18nMiddleware middleware not initialized"), w1)).
Proof.
  intros Hg. split; [by apply middleware_getter_throws|].
  intros Hs messages next.
  rewrite (middleware_getter_throws _ _ _ _ _ _ _ Hg). cbn [snd].
  apply accessor_absent. unfold slot_state in Hs.
  by destruct (var_i18n (ctx_of w1 c)).
Qed.

(** X7: what the accessor returns for a request depends on the slot of
    that request alone: the other contexts, the cookies and the rest of the
    state do not enter. *)
Theorem accessor_reads_own_slot_only
    (o : I18nOptions Msg) (i : I18n TranslateFn) (c : CtxRef) (w w' : World) :
  createI18n createTranslate o = Returns i ->
  var_i18n (ctx_of w c) = var_i18n (ctx_of w' c) ->
  (getI18n i c w).1 = (getI18n i c w').1.
Proof.
  intros Hi Hsame. destruct (createI18n_returns _ _ _ Hi) as (_ & -> & _).
  destruct (var_i18n (ctx_of w' c)) as [v|] eqn:Hw'.
  - by rewrite (accessor_present _ _ _ _ _ Hsame), (accessor_present _ _ _ _ _ Hw').
  - by rewrite (accessor_absent _ _ _ _ Hsame), (accessor_absent _ _ _ _ Hw').
Qed.

(** X8: in any interleaving of the steps of several requests, an access
    made for a request that started without the slot and whose middleware
    has not run yet fails with the error of the accessor, however many
    other requests were bound before. *)
Theorem access_before_bind_fails
    (o : I18nOptions Msg) (i : I18n TranslateFn)
    (signal : gmap string string -> jsval)
    (pre post : list Op) (c : CtxRef) (w : World) :
  createI18n createTranslate o = Returns i ->
  reads_request (getLocale o) signal ->
  slot_state w c = UNINITIALIZED ->
  Bind c ∉ pre ->
  (run_schedule i (pre ++ Access c :: post) w).1 !! length pre =
  Some (Accessed c
          (Throws (Error "createI18nMiddleware middleware not initialized"))).
Proof.
  intros Hi Hr Hs Hpre.
  rewrite (run_schedule_app i). cbn [fst snd].
  rewrite lookup_app_r by (rewrite (run_schedule_length i); lia).
  rewrite (run_schedule_length i), Nat.sub_diag, (run_schedule_cons i).
  cbn [fst snd lookup list_lookup].
  destruct (run_schedule_state createTranslate o i signal Hi Hr pre w)
    as (_ & _ & Hsame).
  destruct (createI18n_returns _ _ _ Hi) as (_ & Ha & _).
  unfold run_op. rewrite Ha.
  rewrite accessor_absent; [done|].
  rewrite (Hsame c Hpre). unfold slot_state in Hs.
  by destruct (var_i18n (ctx_of w c)).
Qed.

End FlowExtras.

(** ** Running the middleware more than once *)

(** X9: with a getter that reads its request, the middleware installed
    twice does what it does installed once: the second run writes the
    locale the first one wrote. *)
Theorem middleware_twice_is_once
    (locales : list string) (d : string) (getLocale : GetLocale)
    (signal : gmap string string -> jsval) (c : CtxRef) (next : Next)
    (w : World) :
  reads_request getLocale signal ->
  createI18nMiddleware locales d getLocale c
    (createI18nMiddleware locales d getLocale c next) w =
  createI18nMiddleware locales d getLocale c next w.
Proof.
  intros Hr. rewrite !(middleware_run_reads _ _ _ signal _ _ Hr).
  unfold request_locale. by rewrite req_cookies_set_i18n, set_i18n_twice.
Qed.

(** X10: with a getter that reads its request, the middleware runs of two
    different requests can be swapped: either order hands [next] the same
    store, in which each request holds its own locale. *)
Theorem middleware_of_two_requests_commutes
    (locales : list string) (d : string) (getLocale : GetLocale)
    (signal : gmap string string -> jsval) (c1 c2 : CtxRef) (next : Next)
    (w : World) :
  reads_request getLocale signal ->
  c1 ≠ c2 ->
  createI18nMiddleware locales d getLocale c1
    (createI18nMiddleware locales d getLocale c2 next) w =
  createI18nMiddleware locales d getLocale c2
    (createI18nMiddleware locales d getLocale c1 next) w /\
  exists w2,
    createI18nMiddleware locales d getLocale c1
      (createI18nMiddleware locales d getLocale c2 next) w = next w2 /\
    bound_locale w2 c1 = Some (request_locale signal locales d w c1) /\
    bound_locale w2 c2 = Some (request_locale signal locales d w c2).
Proof.
  intros Hr Hne. rewrite !(middleware_run_reads _ _ _ signal _ _ Hr).
  unfold request_locale. rewrite !req_cookies_set_i18n.
  split; [by rewrite set_i18n_commute|].
  eexists. split; [done|].
  rewrite bound_locale_set_i18n. unfold bound_locale.
  rewrite ctx_of_set_i18n_other by done. by rewrite ctx_of_set_i18n_same.
Qed.

(** ** The handler of the tests, for any catalog *)

Section ServeExtras.
Context {Msg : Type}.
Variable createTranslate : gmap string Msg -> string -> string -> string.

(** X11: with the cookie getter of the tests and any catalog that holds
    the default locale, the middleware followed by the handler answers with
    the greeting of the cookie's locale when the cookie names a key of the
    catalog, and with the greeting of the default locale when it names
    anything else or is missing; the request is left bound to that
    locale. *)
Theorem serve_cookie_locale
    (catalog : gmap string Msg) (d : string) (i : I18n (string -> string))
    (c : CtxRef) (w : World) :
  createI18n createTranslate
    {| messages := catalog; defaultLocale := d; getLocale := cookieLocale |}
    = Returns i ->
  let l := match req_cookies (ctx_of w c) !! localeCookieName with
           | Some s => if bool_decide (s ∈ dom catalog) then s else d
           | None => d
           end in
  serve i c w =
    (Returns (createTranslate catalog l "greeting"),
     set_i18n c {| locale := l |} w).
Proof.
  intros Hi l.
  destruct (createI18n_returns _ _ _ Hi) as (_ & Ha & Hm).
  cbn [messages defaultLocale getLocale] in Ha, Hm.
  unfold serve, bind. rewrite Hm, Ha.
  rewrite (middleware_run_reads _ _ _ _ _ _ cookieLocale_reads_request).
  unfold ret at 1.
  assert (request_locale cookieSignal (Object_keys catalog) d w c = l) as ->.
  { unfold request_locale, cookieSignal, l.
    destruct (req_cookies (ctx_of w c) !! localeCookieName) as [s|];
      [|reflexivity].
    unfold resolveLocale. cbn [typeof]. by rewrite includes_keys. }
  unfold greet, bind.
  rewrite (accessor_present createTranslate catalog c _ {| locale := l |})
    by (by rewrite ctx_of_set_i18n_same).
  reflexivity.
Qed.

End ServeExtras.

(** ** The further properties at the set-up of the tests *)

(** A request whose locale signal cannot be read. *)
Lemma getter_error_leaves_request_unbound_witness :
  (forall next : Next,
     createI18nMiddleware ["en-EN"; "de-DE"] "en-EN" failingLocale 1 next
       two_requests
     = (Throws (Error "locale signal unreadable"), two_requests)) /\
  (slot_state two_requests 1 = UNINITIALIZED ->
   forall (messages : gmap string (gmap string string)) (next : Next),
     createGetI18n lookupTranslate messages 1
       (createI18nMiddleware ["en-EN"; "de-DE"] "en-EN" failingLocale 1 next
          two_requests).2 =
     (Throws (Error "createI18nMiddleware middleware not initialized"),
      two_requests)).
Proof.
  apply (getter_error_leaves_request_unbound lookupTranslate
           ["en-EN"; "de-DE"] "en-EN" failingLocale 1 two_requests
           two_requests (Error "locale signal unreadable")).
  reflexivity.
Defined.

(** The same bound request in two stores that differ everywhere else. *)
Lemma accessor_reads_own_slot_only_witness :
  (getI18n (test_i18n lookupTranslate "en-EN") 7
     (world_of {[ 7 := bound_request "de-DE" ]})).1 =
  (getI18n (test_i18n lookupTranslate "en-EN") 7
     {| contexts :=
          {[ 7 := {| req_cookies := {[ localeCookieName := "tr-TR" ]};
                     var_i18n := Some {| locale := "de-DE" |};
                     var_other := {[ "user" := VStr "ada" ]} |};
             8 := bound_request "en-EN" ]};
        globals := {[ "hits" := VNum 3 ]} |}).1.
Proof.
  apply (accessor_reads_own_slot_only lookupTranslate (test_options "en-EN")
           (test_i18n lookupTranslate "en-EN")).
  - reflexivity.
  - vm_compute. reflexivity.
Defined.

(** Request 1 read after request 2 was bound, before its own bind. *)
Lemma access_before_bind_fails_witness :
  (run_schedule (test_i18n lookupTranslate "en-EN")
     ([Bind 2; Access 2] ++ Access 1 :: [Bind 1]) two_requests).1 !! 2 =
  Some (Accessed 1
          (Throws (Error "createI18nMiddleware middleware not initialized"))).
Proof.
  apply (access_before_bind_fails lookupTranslate (test_options "en-EN")
           (test_i18n lookupTranslate "en-EN") cookieSignal
           [Bind 2; Access 2] [Bind 1] 1 two_requests).
  - reflexivity.
  - exact cookieLocale_reads_request.
  - reflexivity.
  - apply (bool_decide_unpack _). vm_compute. exact I.
Defined.

(** The middleware of the tests, installed twice. *)
Lemma middleware_twice_is_once_witness :
  createI18nMiddleware ["en-EN"; "de-DE"] "en-EN" cookieLocale 1
    (createI18nMiddleware ["en-EN"; "de-DE"] "en-EN" cookieLocale 1 (ret tt))
    two_requests =
  createI18nMiddleware ["en-EN"; "de-DE"] "en-EN" cookieLocale 1 (ret tt)
    two_requests.
Proof.
  apply (middleware_twice_is_once ["en-EN"; "de-DE"] "en-EN" cookieLocale
           cookieSignal 1 (ret tt) two_requests).
  exact cookieLocale_reads_request.
Defined.

(** The two requests of [two_requests], bound in either order. *)
Lemma middleware_of_two_requests_commutes_witness :
  createI18nMiddleware ["en-EN"; "de-DE"] "en-EN" cookieLocale 1
    (createI18nMiddleware ["en-EN"; "de-DE"] "en-EN" cookieLocale 2 (ret tt))
    two_requests =
  createI18nMiddleware ["en-EN"; "de-DE"] "en-EN" cookieLocale 2
    (createI18nMiddleware ["en-EN"; "de-DE"] "en-EN" cookieLocale 1 (ret tt))
    two_requests /\
  exists w2,
    createI18nMiddleware ["en-EN"; "de-DE"] "en-EN" cookieLocale 1
      (createI18nMiddleware ["en-EN"; "de-DE"] "en-EN" cookieLocale 2 (ret tt))
      two_requests = ret tt w2 /\
    bound_locale w2 1 = Some "de-DE" /\
    bound_locale w2 2 = Some "en-EN".
Proof.
  apply (middleware_of_two_requests_commutes ["en-EN"; "de-DE"] "en-EN"
           cookieLocale cookieSignal 1 2 (ret tt) two_requests).
  - exact cookieLocale_reads_request.
  - discriminate.
Defined.

(** The German request of the tests. *)
Lemma serve_cookie_locale_witness :
  serve (test_i18n lookupTranslate "en-EN") 0
    (world_of {[ 0 := request (Some "de-DE") ]}) =
  (Returns "Hallo!",
   set_i18n 0 {| locale := "de-DE" |}
     (world_of {[ 0 := request (Some "de-DE") ]})).
Proof.
  etransitivity.
  - apply (serve_cookie_locale lookupTranslate test_messages "en-EN"
             (test_i18n lookupTranslate "en-EN") 0
             (world_of {[ 0 := request (Some "de-DE") ]})).
    reflexivity.
  - vm_compute. reflexivity.
Defined.
